(** * AgriPricePulse: the market-data module and its specification

    The module under verification is [src/data/marketData.ts]: the price
    synthesizer ([generatePriceFluctuation], [calculatePriceChange],
    [generateMarketData], [generateHistoricalData]) and the analytics
    ([calculateMovingAverage], [calculateVolatility],
    [calculateMarketEfficiency]).

    A TypeScript [number] is an IEEE 754 binary64 value, and so is Rocq's
    primitive [float]: [+ - * /] and [sqrt] round to nearest-even on both
    sides, so the arithmetic below is the arithmetic the program performs,
    bit for bit, NaN and infinities included.  What the host library only
    approximates ([Math.log], [Math.cos], [Math.sin]) and what the host
    supplies from outside ([Math.random], the clock, the time zone) are
    parameters of the model. *)

From Stdlib Require Import String Ascii List ZArith Bool Lia Uint63 Floats.
Import ListNotations.

#[local] Open Scope bool_scope.

(* Decimal literals such as 0.15 denote the nearest binary64 value, as they
   do in the source. *)
#[local] Set Warnings "-inexact-float".

(** ** The host language: numbers, [Math], arrays *)

Module JS.

Definition number := float.

(** The number nearest to an integer (exact below 2^53): how an array
    length or a loop counter enters floating-point arithmetic. *)
Definition num_of_Z (z : Z) : number :=
  SF2Prim (binary_normalize prec emax z 0 false).

Definition Math_abs (x : number) : number := PrimFloat.abs x.
Definition Math_sqrt (x : number) : number := PrimFloat.sqrt x.

(** [Math.PI], the binary64 value nearest to pi. *)
Definition Math_PI : number := 0x1.921fb54442d18p+1%float.

(** [Math.max(x, y)]: NaN if either is NaN, else the larger, with
    [+0] above [-0]. *)
Definition Math_max (x y : number) : number :=
  if is_nan x || is_nan y then nan
  else if (x <? y)%float then y
  else if (y <? x)%float then x
  else if get_sign x then y else x.

(** [Math.round(x)]: NaN, the infinities and the zeros are returned as
    they are; a finite [x = +-m*2^e] with [e >= 0] is integral already;
    otherwise the result is [floor(x + 1/2)], computed exactly on the
    mantissa, ties going towards +infinity, and a zero result keeps the
    sign of [x]. *)
Definition round_half_up (s : bool) (m : positive) (e : Z) : Z :=
  (cond_Zopp s (Zpos m) + 2 ^ (- e - 1)) / 2 ^ (- e).

Definition Math_round (x : number) : number :=
  match Prim2SF x with
  | S754_finite s m e =>
      if (0 <=? e)%Z then x
      else
        let k := round_half_up s m e in
        if (k =? 0)%Z then (if s then neg_zero else PrimFloat.zero) else num_of_Z k
  | _ => x
  end.

(** [Math.pow(x, 2)].  The language leaves [Math.pow] implementation
    approximated; for the exponent 2 the engines' fdlibm-style [pow]
    returns the correctly rounded square [x * x], which is what is
    modelled. *)
Definition Math_pow_2 (x : number) : number := (x * x)%float.

Definition Array_length {A} (a : list A) : Z := Z.of_nat (List.length a).

(** [a.reduce((sum, val) => sum + val, 0)] *)
Definition reduce_sum (a : list number) : number :=
  fold_left (fun sum val => (sum + val)%float) a 0%float.

(** [a.slice(start)] for an integral [start]: a negative [start] counts
    from the end, and both ends are clamped to the array. *)
Definition slice {A} (start : Z) (a : list A) : list A :=
  let len := Array_length a in
  let k := if (start <? 0)%Z then Z.max (len + start) 0 else Z.min start len in
  skipn (Z.to_nat k) a.

(** [a[i]]: reading past the end gives [undefined], which arithmetic
    turns into NaN. *)
Definition get (a : list number) (i : nat) : number := nth i a nan.

End JS.

Import JS.

(** ** Analytics: [calculateMovingAverage], [calculateVolatility],
       [calculateMarketEfficiency] *)

Module Analytics.

(** [period] is a count of observations (the dashboard passes 7 and 30),
    so it is an integer here. *)
Definition calculateMovingAverage (data : list number) (period : Z) : number :=
  if (Array_length data <? period)%Z then
    (reduce_sum data / num_of_Z (Array_length data))%float
  else
    let recentData := slice (- period) data in
    (reduce_sum recentData / num_of_Z period)%float.

Definition calculateVolatility (prices : list number) : number :=
  if (Array_length prices <? 2)%Z then 0%float
  else
    let mean := (reduce_sum prices / num_of_Z (Array_length prices))%float in
    let squaredDifferences :=
      map (fun price => Math_pow_2 (price - mean)%float) prices in
    let variance :=
      (reduce_sum squaredDifferences / num_of_Z (Array_length prices))%float in
    Math_sqrt variance.

(** The three accumulators of the correlation loop. *)
Record sums := mkSums
  { numerator : number; denominator1 : number; denominator2 : number }.

Definition efficiency_step (prices1 prices2 : list number)
    (mean1 mean2 : number) (acc : sums) (i : nat) : sums :=
  let diff1 := (get prices1 i - mean1)%float in
  let diff2 := (get prices2 i - mean2)%float in
  {| numerator := (numerator acc + diff1 * diff2)%float;
     denominator1 := (denominator1 acc + diff1 * diff1)%float;
     denominator2 := (denominator2 acc + diff2 * diff2)%float |}.

Definition efficiency_loop (prices1 prices2 : list number)
    (mean1 mean2 : number) (n : nat) : sums :=
  fold_left (efficiency_step prices1 prices2 mean1 mean2) (seq 0 n)
    (mkSums 0%float 0%float 0%float).

Definition calculateMarketEfficiency (prices1 prices2 : list number) : number :=
  if negb (Array_length prices1 =? Array_length prices2)%Z
     || (Array_length prices1 <? 2)%Z
  then 0%float
  else
    let n := List.length prices1 in
    let mean1 := (reduce_sum prices1 / num_of_Z (Z.of_nat n))%float in
    let mean2 := (reduce_sum prices2 / num_of_Z (Z.of_nat n))%float in
    let s := efficiency_loop prices1 prices2 mean1 mean2 n in
    let correlation :=
      (numerator s / Math_sqrt (denominator1 s * denominator2 s))%float in
    Math_abs correlation.

End Analytics.

Import Analytics.

(** ** The host's [Date]: time values, the calendar and the time zone

    A [Date] holds a time value, the milliseconds since 1970-01-01T00:00Z.
    The calendar functions are those of ECMA-262 (Day, DayFromYear,
    YearFromTime, MonthFromTime, DateFromTime, MakeDay, MakeDate); the
    host's time zone is the parameter [LocalTZA t isUTC], the offset in
    milliseconds of local time from UTC at the UTC instant [t]
    ([isUTC = true]) or at the local time [t] ([isUTC = false]).  Time
    values stay far inside the range where [TimeClip] is the identity. *)

Module JSDate.

#[local] Open Scope Z_scope.

Definition msPerDay : Z := 86400000.
Definition msPerHour : Z := 3600000.

Definition Day (t : Z) : Z := t / msPerDay.
Definition TimeWithinDay (t : Z) : Z := t mod msPerDay.

Definition DaysInYear (y : Z) : Z :=
  if negb (y mod 4 =? 0) then 365
  else if negb (y mod 100 =? 0) then 366
  else if negb (y mod 400 =? 0) then 365
  else 366.

Definition DayFromYear (y : Z) : Z :=
  365 * (y - 1970) + (y - 1969) / 4 - (y - 1901) / 100 + (y - 1601) / 400.

Definition TimeFromYear (y : Z) : Z := msPerDay * DayFromYear y.

(** The largest [y] with [TimeFromYear y <= t]: an estimate from the mean
    length of a Gregorian year, then one step up or down. *)
Definition YearFromTime (t : Z) : Z :=
  let y := 1970 + (Day t * 400) / 146097 in
  if TimeFromYear (y + 1) <=? t then y + 1
  else if t <? TimeFromYear y then y - 1
  else y.

Definition InLeapYear (t : Z) : Z :=
  if DaysInYear (YearFromTime t) =? 366 then 1 else 0.

Definition DayWithinYear (t : Z) : Z := Day t - DayFromYear (YearFromTime t).

(** Days of the year before month [m] (0 = January) in a year with
    [leap] extra days. *)
Definition DaysBeforeMonth (m leap : Z) : Z :=
  match m with
  | 0 => 0
  | 1 => 31
  | 2 => 59 + leap
  | 3 => 90 + leap
  | 4 => 120 + leap
  | 5 => 151 + leap
  | 6 => 181 + leap
  | 7 => 212 + leap
  | 8 => 243 + leap
  | 9 => 273 + leap
  | 10 => 304 + leap
  | _ => 334 + leap
  end.

Definition MonthFromTime (t : Z) : Z :=
  let d := DayWithinYear t in
  let leap := InLeapYear t in
  if d <? 31 then 0
  else if d <? 59 + leap then 1
  else if d <? 90 + leap then 2
  else if d <? 120 + leap then 3
  else if d <? 151 + leap then 4
  else if d <? 181 + leap then 5
  else if d <? 212 + leap then 6
  else if d <? 243 + leap then 7
  else if d <? 273 + leap then 8
  else if d <? 304 + leap then 9
  else if d <? 334 + leap then 10
  else 11.

Definition DateFromTime (t : Z) : Z :=
  DayWithinYear t - DaysBeforeMonth (MonthFromTime t) (InLeapYear t) + 1.

Definition MakeDay (year month date : Z) : Z :=
  let ym := year + month / 12 in
  let mn := month mod 12 in
  let leap := if DaysInYear ym =? 366 then 1 else 0 in
  DayFromYear ym + DaysBeforeMonth mn leap + date - 1.

Definition MakeDate (day time : Z) : Z := day * msPerDay + time.

Section TimeZone.
Variable LocalTZA : Z -> bool -> Z.

Definition LocalTime (t : Z) : Z := t + LocalTZA t true.
Definition UTC (t : Z) : Z := t - LocalTZA t false.

(** [d.getDate()]: the day of the month, in local time. *)
Definition getDate (tv : Z) : Z := DateFromTime (LocalTime tv).

(** [d.setDate(dt)]: the new time value; the month, the year and the
    time of day are those of the local time. *)
Definition setDate (tv : Z) (dt : Z) : Z :=
  let t := LocalTime tv in
  let newDate :=
    MakeDate (MakeDay (YearFromTime t) (MonthFromTime t) dt) (TimeWithinDay t) in
  UTC newDate.
End TimeZone.

(** Decimal digits, zero padded to [width]. *)
Fixpoint pad (width : nat) (n : Z) : string :=
  match width with
  | O => EmptyString
  | S w =>
      append (pad w (n / 10))
        (String (ascii_of_nat (48 + Z.to_nat (n mod 10))) EmptyString)
  end.

(** [d.toISOString().split('T')[0]]: the calendar date in UTC, as
    YYYY-MM-DD (years outside 0..9999 take a sign and six digits). *)
Definition toISOString_date (tv : Z) : string :=
  let y := YearFromTime tv in
  let year :=
    if (0 <=? y) && (y <=? 9999) then pad 4 y
    else if y <? 0 then append "-" (pad 6 (- y))
    else append "+" (pad 6 y) in
  append year
    (append "-" (append (pad 2 (MonthFromTime tv + 1))
       (append "-" (pad 2 (DateFromTime tv))))).

End JSDate.

Import JSDate.

(** ** The price synthesizer *)

Module Synth.

#[local] Open Scope float_scope.

(** What the module takes from its host: the successive results of
    [Math.random()], the implementation-approximated [Math.log],
    [Math.cos] and [Math.sin], the clock read by [new Date()] and the
    time zone. *)
Record host := mkHost
  { Math_random : nat -> number;
    Math_log : number -> number;
    Math_cos : number -> number;
    Math_sin : number -> number;
    Date_now : Z;
    LocalTZA : Z -> bool -> Z }.

(** [City] and [Commodity] of [types/market]. *)
Inductive City := NAIROBI | MOMBASA.
Inductive Commodity := MAIZE | BEANS.

Record MarketData := mkMarketData
  { city : City;
    commodity : Commodity;
    maizePrice : number;
    maizeChange : number;
    beansPrice : number;
    beansChange : number;
    lastUpdated : Z }.

Record PriceData := mkPriceData
  { date : string;
    nairobiMaize : number;
    nairobiBeans : number;
    mombasaMaize : number;
    mombasaBeans : number }.

Definition BASE_PRICES (c : Commodity) (where_ : City) : number :=
  match c, where_ with
  | MAIZE, NAIROBI => 4500
  | MAIZE, MOMBASA => 4200
  | BEANS, NAIROBI => 8500
  | BEANS, MOMBASA => 8200
  end.

Definition VOLATILITY (c : Commodity) : number :=
  match c with
  | MAIZE => 0.15
  | BEANS => 0.20
  end.

(** A computation that calls [Math.random()]: it is given the number of
    calls made so far and returns it advanced. *)
Definition Rand (A : Type) : Type := nat -> A * nat.
Definition ret {A} (a : A) : Rand A := fun k => (a, k).
Definition bind {A B} (m : Rand A) (f : A -> Rand B) : Rand B :=
  fun k => let (a, k') := m k in f a k'.
Definition random (h : host) : Rand number := fun k => (Math_random h k, S k).

Notation "x <- m ;; f" := (bind m (fun x => f))
  (at level 61, m at next level, right associativity).

(** The standard-normal sample of the Box-Muller transform. *)
Definition boxMuller (h : host) (random1 random2 : number) : number :=
  Math_sqrt (-2 * Math_log h random1) * Math_cos h (2 * Math_PI * random2).

Definition generatePriceFluctuation (h : host) (basePrice volatility : number)
  : Rand number :=
  random1 <- random h ;;
  random2 <- random h ;;
  let normalRandom := boxMuller h random1 random2 in
  let fluctuation := normalRandom * volatility * basePrice in
  ret (Math_max (basePrice + fluctuation) (basePrice * 0.5)).

(** The sample a call of [generatePriceFluctuation] computes when [k]
    draws precede it. *)
Definition sample (h : host) (k : nat) : number :=
  boxMuller h (Math_random h k) (Math_random h (S k)).

Definition calculatePriceChange (currentPrice basePrice : number) : number :=
  let changePercent := ((currentPrice - basePrice) / basePrice) * 100 in
  Math_round (changePercent * 10) / 10.

Definition generateMarketData (h : host) : Rand (list MarketData) :=
  let currentTime := Date_now h in
  p1 <- generatePriceFluctuation h (BASE_PRICES MAIZE NAIROBI) (VOLATILITY MAIZE) ;;
  let nairobiMaizePrice := Math_round p1 in
  p2 <- generatePriceFluctuation h (BASE_PRICES MAIZE MOMBASA) (VOLATILITY MAIZE) ;;
  let mombasaMaizePrice := Math_round p2 in
  p3 <- generatePriceFluctuation h (BASE_PRICES BEANS NAIROBI) (VOLATILITY BEANS) ;;
  let nairobiBeansPrice := Math_round p3 in
  p4 <- generatePriceFluctuation h (BASE_PRICES BEANS MOMBASA) (VOLATILITY BEANS) ;;
  let mombasaBeansPrice := Math_round p4 in
  let nairobiMaizeChange := calculatePriceChange nairobiMaizePrice (BASE_PRICES MAIZE NAIROBI) in
  let mombasaMaizeChange := calculatePriceChange mombasaMaizePrice (BASE_PRICES MAIZE MOMBASA) in
  let nairobiBeansChange := calculatePriceChange nairobiBeansPrice (BASE_PRICES BEANS NAIROBI) in
  let mombasaBeansChange := calculatePriceChange mombasaBeansPrice (BASE_PRICES BEANS MOMBASA) in
  ret [ {| city := NAIROBI; commodity := MAIZE;
           maizePrice := nairobiMaizePrice; maizeChange := nairobiMaizeChange;
           beansPrice := nairobiBeansPrice; beansChange := nairobiBeansChange;
           lastUpdated := currentTime |};
        {| city := MOMBASA; commodity := BEANS;
           maizePrice := mombasaMaizePrice; maizeChange := mombasaMaizeChange;
           beansPrice := mombasaBeansPrice; beansChange := mombasaBeansChange;
           lastUpdated := currentTime |} ].

(** The price and the change a snapshot record carries for a commodity,
    and the number of draws that precede that price within the call. *)
Definition priceOf (c : Commodity) (r : MarketData) : number :=
  match c with MAIZE => maizePrice r | BEANS => beansPrice r end.

Definition changeOf (c : Commodity) (r : MarketData) : number :=
  match c with MAIZE => maizeChange r | BEANS => beansChange r end.

Definition drawsBefore (c : Commodity) (where_ : City) : nat :=
  match c, where_ with
  | MAIZE, NAIROBI => 0
  | MAIZE, MOMBASA => 2
  | BEANS, NAIROBI => 4
  | BEANS, MOMBASA => 6
  end.

(** The two factors of the history loop, as functions of the counter
    [i] (the number of days before today). *)
Definition trendFactor (i : Z) : number := 1 + (num_of_Z i * 0.001).

Definition seasonalFactor (h : host) (i : Z) : number :=
  1 + Math_sin h ((num_of_Z i / 30) * Math_PI * 2) * 0.05.

(** The base price a history point fluctuates around. *)
Definition historyBase (h : host) (c : Commodity) (where_ : City) (i : Z) : number :=
  BASE_PRICES c where_ * trendFactor i * seasonalFactor h i.

(** One turn of the loop [for (let i = 29; i >= 0; i--)]. *)
Definition historyPoint (h : host) (today : Z) (i : Z) : Rand PriceData :=
  let date_ := setDate (LocalTZA h) today (getDate (LocalTZA h) today - i) in
  p1 <- generatePriceFluctuation h (historyBase h MAIZE NAIROBI i) (VOLATILITY MAIZE * 0.5) ;;
  p2 <- generatePriceFluctuation h (historyBase h BEANS NAIROBI i) (VOLATILITY BEANS * 0.5) ;;
  p3 <- generatePriceFluctuation h (historyBase h MAIZE MOMBASA i) (VOLATILITY MAIZE * 0.5) ;;
  p4 <- generatePriceFluctuation h (historyBase h BEANS MOMBASA i) (VOLATILITY BEANS * 0.5) ;;
  ret {| date := toISOString_date date_;
         nairobiMaize := Math_round p1;
         nairobiBeans := Math_round p2;
         mombasaMaize := Math_round p3;
         mombasaBeans := Math_round p4 |}.

(** The price a history point carries for a commodity and a city. *)
Definition historyPrice (c : Commodity) (where_ : City) (p : PriceData) : number :=
  match c, where_ with
  | MAIZE, NAIROBI => nairobiMaize p
  | BEANS, NAIROBI => nairobiBeans p
  | MAIZE, MOMBASA => mombasaMaize p
  | BEANS, MOMBASA => mombasaBeans p
  end.

(** The counter's values in the order the loop visits them: 29 down to 0. *)
Definition historyIndices : list Z := map Z.of_nat (rev (seq 0 30)).

Fixpoint historyLoop (h : host) (today : Z) (counters : list Z)
    (historicalData : list PriceData) : Rand (list PriceData) :=
  match counters with
  | [] => ret historicalData
  | i :: rest =>
      p <- historyPoint h today i ;;
      historyLoop h today rest (historicalData ++ [p])
  end.

Definition generateHistoricalData (h : host) : Rand (list PriceData) :=
  let today := Date_now h in
  historyLoop h today historyIndices [].

(** The price of commodity [c] in city [w] of the snapshot taken after
    [k] draws. *)
Definition snapshotPrice (h : host) (k : nat) (c : Commodity) (w : City) : number :=
  Math_round
    (Math_max
       (BASE_PRICES c w + sample h (drawsBefore c w + k) * VOLATILITY c * BASE_PRICES c w)
       (BASE_PRICES c w * 0.5)).

(** The points the loop appends for the counter values [counters] when
    [k] draws precede it: each turn makes eight draws. *)
Fixpoint historyPoints (h : host) (today : Z) (counters : list Z) (k : nat)
  : list PriceData :=
  match counters with
  | [] => []
  | i :: rest =>
      fst (historyPoint h today i k) :: historyPoints h today rest (8 + k)
  end.

(** The number of draws that precede the price of commodity [c] in city
    [w] within one turn of the history loop. *)
Definition historyDraws (c : Commodity) (w : City) : nat :=
  match c, w with
  | MAIZE, NAIROBI => 0
  | BEANS, NAIROBI => 2
  | MAIZE, MOMBASA => 4
  | BEANS, MOMBASA => 6
  end.

End Synth.

Import Synth.

(** ** A reference host

    A concrete host to run the synthesizer on: [Math.sin] and [Math.cos]
    by their Taylor series after reduction to [-pi, pi], [Math.log] by
    splitting off the binary exponent and the series of [2 atanh], each
    within a few units in the last place of the true value, which is all
    the language asks of them. *)

Module RefHost.

#[local] Open Scope float_scope.

(** [1 - y2/((2j)(2j+1)) (1 - y2/((2j+2)(2j+3)) (...))], the tail of the
    sine series ([odd = true]) or, with [(2j-1)(2j)], of the cosine
    series. *)
Fixpoint trig_tail (odd : bool) (y2 : number) (j : Z) (terms : nat) : number :=
  match terms with
  | O => 1
  | S terms' =>
      let d := (if odd then (2 * j) * (2 * j + 1) else (2 * j - 1) * (2 * j))%Z in
      1 - y2 / num_of_Z d * trig_tail odd y2 (j + 1)%Z terms'
  end.

(** Reduction of an argument in [0, 2 pi] to [-pi, pi]. *)
Definition reduce (x : number) : number :=
  if Math_PI <? x then x - 2 * Math_PI else x.

Definition sin (x : number) : number :=
  let y := reduce x in y * trig_tail true (y * y) 1 16.

Definition cos (x : number) : number :=
  let y := reduce x in trig_tail false (y * y) 1 16.

Definition LN2 : number := 0x1.62e42fefa39efp-1.

(** [1/(2j+1) + s2 (1/(2j+3) + s2 (...))] *)
Fixpoint atanh_tail (s2 : number) (j : Z) (terms : nat) : number :=
  match terms with
  | O => 0
  | S terms' => 1 / num_of_Z (2 * j + 1)%Z + s2 * atanh_tail s2 (j + 1)%Z terms'
  end.

Definition log (x : number) : number :=
  if is_nan x || (x <? 0) then nan
  else if x =? 0 then neg_infinity
  else if is_infinity x then x
  else
    let (m, e) := Z.frexp x in
    let s := (m - 1) / (m + 1) in
    num_of_Z e * LN2 + 2 * s * atanh_tail (s * s) 0 24.

(** Alternating draws [u1, u2, u1, u2, ...] of [Math.random()], a UTC
    clock reading and no time-zone offset. *)
Definition alternating (u1 u2 : number) (k : nat) : number :=
  if Nat.even k then u1 else u2.

Definition utc (_ : Z) (_ : bool) : Z := 0%Z.

Definition ref_host (rand : nat -> number) (now : Z) (tz : Z -> bool -> Z) : host :=
  {| Math_random := rand; Math_log := log; Math_cos := cos; Math_sin := sin;
     Date_now := now; LocalTZA := tz |}.

(** 2024-06-13T00:00:00Z. *)
Definition june13 : Z := MakeDate (MakeDay 2024 5 13) 0.

(** Draws that push every price to its floor: a first draw of 2^-40
    makes the radius large and a second draw of 1/2 makes the cosine -1. *)
Definition low_host : host := ref_host (alternating 0x1p-40 0.5) june13 utc.

(** Draws that leave every price just above its base: the second draw
    1/4 - 2^-12 makes the cosine about 0.0015. *)
Definition near_host : host := ref_host (alternating 0.5 0x1.ff8p-3) june13 utc.

(** Africa/Nairobi: three hours ahead of UTC all year. *)
Definition nairobi_tz (_ : Z) (_ : bool) : Z := (3 * msPerHour)%Z.

(** America/New_York in 2024: UTC-5, and UTC-4 from 10 March 02:00
    local standard time (07:00Z) to 3 November 02:00 local daylight
    time (06:00Z).  A local time that the spring change skips is read
    with the offset before it, one that the autumn change repeats is
    read as the earlier instant. *)
Definition new_york_tz (t : Z) (isUTC : bool) : Z :=
  let spring := MakeDay 2024 2 10 in
  let autumn := MakeDay 2024 10 3 in
  let (from, to) :=
    if isUTC
    then (MakeDate spring (7 * msPerHour), MakeDate autumn (6 * msPerHour))
    else (MakeDate spring (3 * msPerHour), MakeDate autumn (2 * msPerHour)) in
  (if (from <=? t) && (t <? to) then -4 * msPerHour else -5 * msPerHour)%Z.

(** 2024-06-01T22:00:00Z, which is 01:00 on 2 June in Nairobi. *)
Definition nairobi_host : host :=
  ref_host (alternating 0.5 0.5)
    (MakeDate (MakeDay 2024 5 1) (22 * msPerHour)) nairobi_tz.

(** 2024-03-20T23:30:00Z, which is 19:30 on 20 March in New York. *)
Definition new_york_host : host :=
  ref_host (alternating 0.5 0.5)
    (MakeDate (MakeDay 2024 2 20) (23 * msPerHour + 1800000)) new_york_tz.

End RefHost.

(** ** The analytics in the words of the specification *)

Module Spec.

#[local] Open Scope float_scope.

(** The arithmetic mean: the sum over the count. *)
Definition mean (series : list number) : number :=
  reduce_sum series / num_of_Z (Array_length series).

(** The last [n] elements of a series. *)
Definition lastn {A} (n : nat) (series : list A) : list A :=
  rev (firstn n (rev series)).

(** Population standard deviation: the mean, then the mean of the
    squared deviations from it, then the square root. *)
Definition population_stdev (series : list number) : number :=
  let m := mean series in
  Math_sqrt (mean (map (fun x => (x - m) * (x - m)) series)).




End Spec.

Import Spec.

(** ** Binary64 numbers as an ordered set

    Definitions for reasoning about all numbers at once, over the
    standard library's specification [spec_float] of the primitive
    operations. *)

Module FloatOrder.

#[local] Open Scope Z_scope.

(** Every finite binary64 value is an integer multiple of 2^-1074 and
    below 2^1024 in magnitude.  [SFord] is the value scaled by 2^1074:
    the number one is [ord_one], one half is [ord_half], and the
    infinities sit at [ord_inf] and [- ord_inf], beyond every finite
    value.  On the numbers other than NaN it is an order embedding
    into Z (the two zeros share an image). *)
Definition ord_inf : Z := 2 ^ 2100.
Definition ord_one : Z := 2 ^ 1074.
Definition ord_half : Z := 2 ^ 1073.

Definition SFord (x : spec_float) : Z :=
  match x with
  | S754_zero _ => 0
  | S754_infinity s => cond_Zopp s ord_inf
  | S754_nan => 0
  | S754_finite s m e => cond_Zopp s (Zpos m * 2 ^ (e + 1074))
  end.

Definition ord (x : float) : Z := SFord (Prim2SF x).

(** The scaled magnitude of the finite number with mantissa [m] and
    exponent [e]. *)
Definition mag (m : positive) (e : Z) : Z := Zpos m * 2 ^ (e + 1074).

Definition is_nanSF (x : spec_float) : bool :=
  match x with S754_nan => true | _ => false end.

(** [Math.round] on the embedding: [floor (v + 1/2)], the infinities
    left alone. *)
Definition round_ord (v : Z) : Z :=
  if ord_inf <=? Z.abs v then v
  else (v + ord_half) / ord_one * ord_one.

(** [SFsigned true x]: [x] is NaN, a zero, or carries the minus sign;
    [SFsigned false x]: [x] is NaN, a zero, or carries the plus sign. *)
Definition SFsigned (sg : bool) (x : spec_float) : Prop :=
  match x with
  | S754_nan | S754_zero _ => True
  | S754_infinity s | S754_finite s _ _ => s = sg
  end.

Definition SFzero (x : spec_float) : Prop :=
  match x with S754_zero _ => True | _ => False end.

Definition signed (sg : bool) (x : float) : Prop := SFsigned sg (Prim2SF x).

Definition is_zeroP (x : float) : Prop := SFzero (Prim2SF x).

(** A finite number with the plus sign: the base prices, 10 and 100. *)
Definition pos_finite (c : float) : Prop :=
  exists m e, Prim2SF c = S754_finite false m e.

Definition finite (c : float) : Prop :=
  exists s m e, Prim2SF c = S754_finite s m e.

End FloatOrder.

Import FloatOrder.

(** ** The correlation loop, pair by pair *)

Module Loop.

#[local] Open Scope float_scope.


(** The accumulators of the loop run on the swapped arguments. *)
Definition swap_sums (s : sums) : sums :=
  {| numerator := numerator s;
     denominator1 := denominator2 s;
     denominator2 := denominator1 s |}.

End Loop.

Import Loop.

(** * Properties *)

(** ** Facts about binary64 arithmetic *)

Module FloatFacts.

#[local] Open Scope Z_scope.

(** Case analysis on every sign bit the goal branches on. *)
Ltac sign_cases :=
  repeat match goal with
    | |- context [cond_Zopp ?s _] =>
        destruct s; cbn [cond_Zopp negb SFsigned SFzero]
    | |- context [match ?s with true => _ | false => _ end] =>
        destruct s; cbn [cond_Zopp negb SFsigned SFzero]
    end.

Lemma ord_inf_pos : 0 < ord_inf.
Proof. unfold ord_inf. apply Z.pow_pos_nonneg; lia. Qed.

Lemma ord_half_pos : 0 < ord_half.
Proof. unfold ord_half. apply Z.pow_pos_nonneg; lia. Qed.

Lemma ord_one_half : ord_one = 2 * ord_half.
Proof.
  unfold ord_one, ord_half. rewrite <- Z.pow_succ_r by lia. reflexivity.
Qed.

Lemma ord_one_lt_inf : ord_one < ord_inf.
Proof. unfold ord_one, ord_inf. apply Z.pow_lt_mono_r; lia. Qed.

Lemma digits2_pos_bounds (m : positive) :
  2 ^ (Zpos (digits2_pos m) - 1) <= Zpos m < 2 ^ Zpos (digits2_pos m).
Proof.
  induction m as [m IH | m IH |]; cbn [digits2_pos].
  - rewrite Pos2Z.inj_succ.
    replace (Z.succ (Zpos (digits2_pos m)) - 1) with (Z.succ (Zpos (digits2_pos m) - 1)) by lia.
    rewrite !Z.pow_succ_r by lia. lia.
  - rewrite Pos2Z.inj_succ.
    replace (Z.succ (Zpos (digits2_pos m)) - 1) with (Z.succ (Zpos (digits2_pos m) - 1)) by lia.
    rewrite !Z.pow_succ_r by lia. lia.
  - cbn. lia.
Qed.

(** What validity says of a finite number [+-m*2^e]. *)
Lemma bounded_inv (m : positive) (e : Z) :
  bounded prec emax m e = true ->
  -1074 <= e <= 971 /\ Zpos m < 2 ^ 53 /\ (e = -1074 \/ 2 ^ 52 <= Zpos m).
Proof.
  unfold bounded, canonical_mantissa, fexp, SpecFloat.emin, prec, emax.
  rewrite andb_true_iff, Z.eqb_eq, Z.leb_le.
  intros [Hc He].
  pose proof (digits2_pos_bounds m) as [Hlo Hhi].
  set (d := Zpos (digits2_pos m)) in *.
  assert (Hd : d <= 53 /\ (e = -1074 \/ d = 53)) by lia.
  destruct Hd as [Hd53 Hd].
  split; [lia|]. split.
  - apply Z.lt_le_trans with (1 := Hhi). apply Z.pow_le_mono_r; lia.
  - destruct Hd as [->|Hd]; [now left|right].
    rewrite Hd in Hlo. exact Hlo.
Qed.

Lemma mag_bounds m e :
  bounded prec emax m e = true -> 0 < mag m e < ord_inf.
Proof.
  intros H. apply bounded_inv in H. destruct H as (He & Hm & _).
  unfold mag, ord_inf.
  assert (Hp : 0 < 2 ^ (e + 1074)) by (apply Z.pow_pos_nonneg; lia).
  split; [lia|].
  apply Z.lt_le_trans with (2 ^ 53 * 2 ^ (e + 1074)).
  - apply Z.mul_lt_mono_pos_r; assumption.
  - rewrite <- Z.pow_add_r by lia. apply Z.pow_le_mono_r; lia.
Qed.

Lemma mag_lt m1 e1 m2 e2 :
  bounded prec emax m1 e1 = true -> bounded prec emax m2 e2 = true ->
  e1 < e2 -> mag m1 e1 < mag m2 e2.
Proof.
  intros H1 H2 Hlt.
  apply bounded_inv in H1. destruct H1 as (He1 & Hm1 & _).
  apply bounded_inv in H2. destruct H2 as (He2 & _ & Hn2).
  destruct Hn2 as [Hn2|Hn2]; [lia|].
  unfold mag.
  assert (Hp1 : 0 < 2 ^ (e1 + 1074)) by (apply Z.pow_pos_nonneg; lia).
  assert (Hp2 : 0 < 2 ^ (e2 + 1074)) by (apply Z.pow_pos_nonneg; lia).
  apply Z.lt_le_trans with (2 ^ 53 * 2 ^ (e1 + 1074)).
  - apply Z.mul_lt_mono_pos_r; assumption.
  - apply Z.le_trans with (2 ^ 52 * 2 ^ (e2 + 1074)).
    + rewrite <- !Z.pow_add_r by lia. apply Z.pow_le_mono_r; lia.
    + apply Z.mul_le_mono_nonneg_r; lia.
Qed.

Lemma mag_compare m1 e1 m2 e2 :
  bounded prec emax m1 e1 = true -> bounded prec emax m2 e2 = true ->
  match e1 ?= e2 with
  | Lt => Lt
  | Gt => Gt
  | Eq => Pos.compare_cont Eq m1 m2
  end = (mag m1 e1 ?= mag m2 e2).
Proof.
  intros H1 H2. destruct (Z.compare_spec e1 e2) as [Heq|Hlt|Hgt].
  - subst e2. unfold mag.
    apply bounded_inv in H1. destruct H1 as (He1 & _).
    rewrite <- Zmult_compare_compat_r
      by (apply Z.lt_gt, Z.pow_pos_nonneg; lia).
    reflexivity.
  - symmetry. apply Z.compare_lt_iff. now apply mag_lt.
  - symmetry. apply Z.compare_gt_iff. now apply mag_lt.
Qed.

Lemma SFord_bounds x :
  valid_binary x = true -> - ord_inf <= SFord x <= ord_inf.
Proof.
  pose proof ord_inf_pos as H0.
  destruct x as [s|s| |s m e]; cbn [SFord valid_binary]; intros H.
  - lia.
  - destruct s; cbn [cond_Zopp]; lia.
  - lia.
  - apply mag_bounds in H. fold (mag m e). destruct s; cbn [cond_Zopp]; lia.
Qed.

(** The order embedding: comparison of valid non-NaN numbers is
    comparison of their images. *)
Lemma SFcompare_ord x y :
  valid_binary x = true -> valid_binary y = true ->
  is_nanSF x = false -> is_nanSF y = false ->
  SFcompare x y = Some (SFord x ?= SFord y).
Proof.
  pose proof ord_inf_pos as H0.
  intros Hx Hy Nx Ny.
  destruct x as [sx|sx| |sx mx ex]; try discriminate Nx;
  destruct y as [sy|sy| |sy my ey]; try discriminate Ny;
  cbn [SFcompare SFord valid_binary] in *;
  try (pose proof (mag_bounds _ _ Hx) as Bx; fold (mag mx ex));
  try (pose proof (mag_bounds _ _ Hy) as By; fold (mag my ey));
  f_equal; try reflexivity; symmetry.
  1-7: solve [ sign_cases;
               first [ apply Z.compare_eq_iff; lia
                     | apply Z.compare_lt_iff; lia
                     | apply Z.compare_gt_iff; lia ] ].
  destruct sx, sy; cbn [cond_Zopp].
  - rewrite Z.compare_opp. rewrite <- (mag_compare my ey mx ex) by assumption.
    rewrite (Z.compare_antisym ex ey), (ZC4 my mx).
    destruct (ex ?= ey); reflexivity.
  - apply Z.compare_lt_iff; lia.
  - apply Z.compare_gt_iff; lia.
  - symmetry. now apply mag_compare.
Qed.

(** *** Comparisons of primitive numbers through the embedding *)

Lemma is_nan_spec x : is_nan x = is_nanSF (Prim2SF x).
Proof.
  unfold is_nan. rewrite eqb_spec. unfold SFeqb.
  destruct (is_nanSF (Prim2SF x)) eqn:N.
  - destruct (Prim2SF x); try discriminate N. reflexivity.
  - rewrite SFcompare_ord by (assumption || apply Prim2SF_valid).
    now rewrite Z.compare_refl.
Qed.

Lemma SFcompare_prim x y :
  is_nan x = false -> is_nan y = false ->
  SFcompare (Prim2SF x) (Prim2SF y) = Some (ord x ?= ord y).
Proof.
  rewrite !is_nan_spec. intros Nx Ny.
  apply SFcompare_ord; assumption || apply Prim2SF_valid.
Qed.

Lemma ltb_ord x y :
  is_nan x = false -> is_nan y = false -> (x <? y)%float = (ord x <? ord y).
Proof.
  intros Nx Ny. rewrite ltb_spec. unfold SFltb, Z.ltb.
  now rewrite SFcompare_prim.
Qed.

Lemma leb_ord x y :
  is_nan x = false -> is_nan y = false -> (x <=? y)%float = (ord x <=? ord y).
Proof.
  intros Nx Ny. rewrite leb_spec. unfold SFleb, Z.leb.
  rewrite SFcompare_prim by assumption. reflexivity.
Qed.

Lemma eqb_ord x y :
  is_nan x = false -> is_nan y = false -> (x =? y)%float = (ord x =? ord y).
Proof.
  intros Nx Ny. rewrite eqb_spec, Z.eqb_compare. unfold SFeqb.
  rewrite SFcompare_prim by assumption. reflexivity.
Qed.

Lemma SFcompare_nan x y :
  is_nanSF x = true \/ is_nanSF y = true -> SFcompare x y = None.
Proof.
  intros [N|N]; destruct x; try discriminate N; destruct y; try discriminate N;
    reflexivity.
Qed.

(** A comparison with NaN is false. *)
Lemma ltb_nan x y : is_nan x = true \/ is_nan y = true -> (x <? y)%float = false.
Proof.
  rewrite !is_nan_spec. intros N. rewrite ltb_spec. unfold SFltb.
  now rewrite SFcompare_nan.
Qed.

Lemma leb_nan x y : is_nan x = true \/ is_nan y = true -> (x <=? y)%float = false.
Proof.
  rewrite !is_nan_spec. intros N. rewrite leb_spec. unfold SFleb.
  now rewrite SFcompare_nan.
Qed.

Lemma eqb_nan x y : is_nan x = true \/ is_nan y = true -> (x =? y)%float = false.
Proof.
  rewrite !is_nan_spec. intros N. rewrite eqb_spec. unfold SFeqb.
  now rewrite SFcompare_nan.
Qed.

(** *** [Math.max] *)

Lemma Math_max_nan x y :
  is_nan x = true \/ is_nan y = true -> Math_max x y = nan.
Proof.
  intros N. unfold Math_max.
  destruct (is_nan x), (is_nan y); try reflexivity.
  destruct N; discriminate.
Qed.

Lemma Math_max_ord x y :
  is_nan x = false -> is_nan y = false ->
  is_nan (Math_max x y) = false /\ ord (Math_max x y) = Z.max (ord x) (ord y).
Proof.
  intros Nx Ny. unfold Math_max. rewrite Nx, Ny. cbn [orb].
  rewrite (ltb_ord x y), (ltb_ord y x) by assumption.
  destruct (Z.ltb_spec (ord x) (ord y)).
  - split; [assumption|lia].
  - destruct (Z.ltb_spec (ord y) (ord x)).
    + split; [assumption|lia].
    + destruct (get_sign x); (split; [assumption|lia]).
Qed.

(** *** Rounding an exactly representable value changes nothing *)

Lemma binary_round_aux_exact s m e :
  bounded prec emax m e = true ->
  binary_round_aux prec emax s (Zpos m) e loc_Exact = S754_finite s m e.
Proof.
  intros H. pose proof H as Hb.
  unfold bounded, canonical_mantissa in H.
  rewrite andb_true_iff, Z.eqb_eq, Z.leb_le in H. destruct H as [Hc He].
  unfold binary_round_aux, shr_fexp. cbn [Zdigits2 shr_record_of_loc].
  rewrite Hc, Z.sub_diag. cbn [shr shr_m loc_of_shr_record round_nearest_even].
  cbn [Zdigits2 shr_record_of_loc].
  rewrite Hc, Z.sub_diag. cbn [shr shr_m].
  apply Z.leb_le in He. now rewrite He.
Qed.

Lemma iter_xO_spec m d :
  Zpos (Pos.iter xO m d) = Zpos m * 2 ^ Zpos d
  /\ digits2_pos (Pos.iter xO m d) = (digits2_pos m + d)%positive.
Proof.
  induction d as [|d IH] using Pos.peano_ind.
  - cbn [Pos.iter digits2_pos]. split; [lia|]. now rewrite Pos.add_1_r.
  - rewrite Pos.iter_succ. cbn [digits2_pos]. destruct IH as [IH1 IH2].
    rewrite Pos2Z.inj_xO, IH1, IH2, Pos2Z.inj_succ, Z.pow_succ_r by lia.
    split; [lia|]. now rewrite Pos.add_succ_r.
Qed.

Lemma shl_align_spec m e e' :
  e' <= e ->
  snd (shl_align m e e') = e'
  /\ Zpos (fst (shl_align m e e')) = Zpos m * 2 ^ (e - e')
  /\ Zpos (digits2_pos (fst (shl_align m e e'))) = Zpos (digits2_pos m) + (e - e').
Proof.
  intros Hle. unfold shl_align.
  destruct (e' - e) as [|d|d] eqn:Hd; try lia.
  - assert (e' = e) by lia. subst. cbn [fst snd].
    rewrite Z.sub_diag, Z.pow_0_r. lia.
  - cbn [fst snd]. destruct (iter_xO_spec m d) as [H1 H2].
    rewrite H1, H2, Pos2Z.inj_add.
    replace (e - e') with (Zpos d) by lia. lia.
Qed.

(** An integer below 2^53 in magnitude converts exactly. *)
Lemma binary_round_int s p :
  Zpos p < 2 ^ 53 ->
  exists m e,
    binary_round prec emax s p 0 = S754_finite s m e
    /\ bounded prec emax m e = true
    /\ mag m e = Zpos p * ord_one.
Proof.
  intros Hp.
  pose proof (digits2_pos_bounds p) as [Hlo Hhi].
  set (d := Zpos (digits2_pos p)) in *.
  assert (Hd : 1 <= d <= 53).
  { split; [unfold d; lia|].
    assert (d - 1 < 53); [|lia].
    apply (Z.pow_lt_mono_r_iff 2); lia. }
  unfold binary_round.
  rewrite Z.add_0_r. fold d.
  assert (Hf : fexp prec emax d = d - 53)
    by (unfold fexp, SpecFloat.emin, prec, emax; lia).
  rewrite Hf.
  destruct (shl_align_spec p 0 (d - 53)) as (H1 & H2 & H3); [lia|].
  destruct (shl_align p 0 (d - 53)) as [mz ez]. cbn [fst snd] in *. subst ez.
  fold d in H3.
  assert (Hb : bounded prec emax mz (d - 53) = true).
  { unfold bounded, canonical_mantissa. rewrite H3.
    unfold fexp, SpecFloat.emin, prec, emax.
    apply andb_true_iff. split; [apply Z.eqb_eq | apply Z.leb_le]; lia. }
  exists mz, (d - 53). split; [now apply binary_round_aux_exact|].
  split; [assumption|].
  unfold mag, ord_one. rewrite H2, <- Z.mul_assoc, <- Z.pow_add_r by lia.
  do 2 f_equal. lia.
Qed.

Lemma num_of_Z_ord k :
  Z.abs k < 2 ^ 53 ->
  is_nan (num_of_Z k) = false /\ ord (num_of_Z k) = k * ord_one.
Proof.
  intros Hk. unfold ord. rewrite is_nan_spec. unfold num_of_Z.
  destruct k as [|p|p]; cbn [binary_normalize].
  - rewrite Prim2SF_SF2Prim by reflexivity. cbn. split; reflexivity.
  - destruct (binary_round_int false p) as (m & e & -> & Hb & Hm); [lia|].
    rewrite Prim2SF_SF2Prim by exact Hb. cbn [is_nanSF SFord cond_Zopp].
    split; [reflexivity|exact Hm].
  - destruct (binary_round_int true p) as (m & e & -> & Hb & Hm); [lia|].
    rewrite Prim2SF_SF2Prim by exact Hb. cbn [is_nanSF SFord cond_Zopp].
    fold (mag m e). rewrite Hm. split; [reflexivity|lia].
Qed.

(** *** [Math.round] *)

Lemma Math_round_nan x : is_nan x = true -> Math_round x = x.
Proof.
  rewrite is_nan_spec. unfold Math_round.
  destruct (Prim2SF x); try discriminate. reflexivity.
Qed.

Lemma round_half_up_scaled s m e :
  -1074 <= e < 0 ->
  (cond_Zopp s (Zpos m * 2 ^ (e + 1074)) + ord_half) / ord_one
  = round_half_up s m e.
Proof.
  intros He. unfold round_half_up, ord_half, ord_one.
  assert (Hc : 0 < 2 ^ (e + 1074)) by (apply Z.pow_pos_nonneg; lia).
  assert (Hb : 0 < 2 ^ (- e)) by (apply Z.pow_pos_nonneg; lia).
  replace (2 ^ 1074) with (2 ^ (- e) * 2 ^ (e + 1074))
    by (rewrite <- Z.pow_add_r by lia; f_equal; lia).
  replace (cond_Zopp s (Zpos m * 2 ^ (e + 1074)) + 2 ^ 1073)
    with ((cond_Zopp s (Zpos m) + 2 ^ (- e - 1)) * 2 ^ (e + 1074)).
  - apply Z.div_mul_cancel_r; lia.
  - rewrite Z.mul_add_distr_r, <- Z.pow_add_r by lia.
    replace (- e - 1 + (e + 1074)) with 1073 by lia.
    destruct s; cbn [cond_Zopp]; lia.
Qed.

Lemma round_half_up_small s m e :
  e < 0 -> Zpos m < 2 ^ 53 -> Z.abs (round_half_up s m e) < 2 ^ 53.
Proof.
  intros He Hm. unfold round_half_up.
  set (h := 2 ^ (- e - 1)).
  assert (Hh : 1 <= h) by (unfold h; apply (Z.pow_le_mono_r 2 0); lia).
  replace (2 ^ (- e)) with (2 * h)
    by (unfold h; rewrite <- Z.pow_succ_r by lia; f_equal; lia).
  assert (H53 : 0 < 2 ^ 53) by (apply Z.pow_pos_nonneg; lia).
  assert (Hsm : - 2 ^ 53 < cond_Zopp s (Zpos m) < 2 ^ 53)
    by (destruct s; cbn [cond_Zopp]; lia).
  set (sm := cond_Zopp s (Zpos m)) in *.
  assert (Hup : (sm + h) / (2 * h) < 2 ^ 53).
  { apply Z.div_lt_upper_bound; nia. }
  assert (Hlo : - 2 ^ 53 + 1 <= (sm + h) / (2 * h)).
  { apply Z.div_le_lower_bound; nia. }
  lia.
Qed.

Lemma Math_round_ord x :
  is_nan x = false ->
  is_nan (Math_round x) = false /\ ord (Math_round x) = round_ord (ord x).
Proof.
  intros Nx. pose proof Nx as Nx'. rewrite is_nan_spec in Nx'.
  pose proof (Prim2SF_valid x) as Hv.
  pose proof ord_inf_pos as H0. pose proof ord_half_pos as Hh.
  pose proof ord_one_half as H1.
  assert (Hhalf : ord_half / ord_one = 0) by (apply Z.div_small; lia).
  unfold Math_round, ord, round_ord.
  destruct (Prim2SF x) as [s|s| |s m e] eqn:E; try discriminate Nx'.
  - rewrite E. split; [assumption|]. cbn [SFord].
    rewrite Z.abs_0. destruct (Z.leb_spec ord_inf 0); [lia|].
    rewrite Z.add_0_l, Hhalf. reflexivity.
  - rewrite E. split; [assumption|]. cbn [SFord].
    destruct (Z.leb_spec ord_inf (Z.abs (cond_Zopp s ord_inf))); [reflexivity|].
    destruct s; cbn [cond_Zopp] in *; lia.
  - cbn [valid_binary] in Hv. pose proof (mag_bounds _ _ Hv) as Hmag.
    pose proof (bounded_inv _ _ Hv) as (He & Hm & _).
    cbn [SFord]. fold (mag m e).
    destruct (Z.leb_spec ord_inf (Z.abs (cond_Zopp s (mag m e))));
      [destruct s; cbn [cond_Zopp] in *; lia|].
    destruct (Z.leb_spec 0 e) as [Hpos|Hneg].
    + rewrite E. split; [assumption|]. cbn [SFord]. fold (mag m e).
      assert (Hsplit : cond_Zopp s (mag m e) = cond_Zopp s (Zpos m * 2 ^ e) * ord_one).
      { unfold mag, ord_one. rewrite Z.pow_add_r by lia.
        destruct s; cbn [cond_Zopp]; lia. }
      rewrite Hsplit at 2. rewrite Z.div_add_l, Hhalf by lia.
      rewrite Hsplit. lia.
    + unfold mag. rewrite round_half_up_scaled by lia.
      pose proof (round_half_up_small s m e Hneg Hm) as Hk.
      destruct (Z.eqb_spec (round_half_up s m e) 0) as [->|Hnz].
      * destruct s; split; reflexivity.
      * destruct (num_of_Z_ord _ Hk) as [Hn Ho].
        split; [assumption|]. exact Ho.
Qed.

Lemma round_ord_finite v :
  Z.abs v < ord_inf ->
  - ord_inf <= (v + ord_half) / ord_one * ord_one <= ord_inf.
Proof.
  intros Hv.
  pose proof ord_half_pos as Hh. pose proof ord_one_half as H1.
  assert (H74 : 0 < ord_one) by lia.
  assert (HK : ord_inf = 2 ^ 1026 * ord_one).
  { unfold ord_inf, ord_one. rewrite <- Z.pow_add_r by lia. reflexivity. }
  set (K := 2 ^ 1026) in *.
  assert (Hlo : - K <= (v + ord_half) / ord_one).
  { apply Z.div_le_lower_bound; [assumption|]. lia. }
  assert (Hhi : (v + ord_half) / ord_one <= K).
  { assert ((v + ord_half) / ord_one < K + 1); [|lia].
    apply Z.div_lt_upper_bound; [assumption|]. lia. }
  rewrite HK. split.
  - rewrite <- Z.mul_opp_l. apply Z.mul_le_mono_nonneg_r; lia.
  - apply Z.mul_le_mono_nonneg_r; lia.
Qed.

Lemma round_ord_mono v w : v <= w -> round_ord v <= round_ord w.
Proof.
  intros Hvw. unfold round_ord.
  pose proof ord_half_pos as Hh. pose proof ord_one_half as H1.
  assert (H74 : 0 < ord_one) by lia.
  destruct (Z.leb_spec ord_inf (Z.abs v)) as [Hv|Hv],
           (Z.leb_spec ord_inf (Z.abs w)) as [Hw|Hw].
  - assumption.
  - pose proof (round_ord_finite w Hw). lia.
  - pose proof (round_ord_finite v Hv). lia.
  - apply Z.mul_le_mono_nonneg_r; [lia|].
    apply Z.div_le_mono; lia.
Qed.

(** Rounding never crosses zero. *)
Lemma round_ord_sign v :
  (v <= 0 -> round_ord v <= 0) /\ (0 <= v -> 0 <= round_ord v).
Proof.
  assert (Hz : round_ord 0 = 0).
  { unfold round_ord. pose proof ord_inf_pos. pose proof ord_half_pos.
    pose proof ord_one_half.
    rewrite Z.abs_0. destruct (Z.leb_spec ord_inf 0); [lia|].
    rewrite Z.add_0_l, Z.div_small by lia. reflexivity. }
  split; intros H; apply round_ord_mono in H; rewrite Hz in H; exact H.
Qed.

(** *** Signs *)

Lemma binary_round_aux_signed sg m e l :
  SFsigned sg (binary_round_aux prec emax sg m e l).
Proof.
  unfold binary_round_aux.
  destruct (shr_fexp prec emax m e l) as [mrs' e'].
  destruct (shr_fexp prec emax _ e' loc_Exact) as [mrs'' e''].
  destruct (shr_m mrs''); [exact I| |exact I].
  destruct (Z.leb e'' _); reflexivity.
Qed.

Lemma binary_normalize_signed M e :
  (M = 0 -> binary_normalize prec emax M e false = S754_zero false)
  /\ (0 <= M -> SFsigned false (binary_normalize prec emax M e false))
  /\ (M <= 0 -> SFsigned true (binary_normalize prec emax M e false)).
Proof.
  destruct M as [|p|p]; cbn [binary_normalize]; unfold binary_round.
  - repeat split; cbn; auto.
  - destruct (shl_align p e _) as [mz ez].
    repeat split; try lia. intros _. apply binary_round_aux_signed.
  - destruct (shl_align p e _) as [mz ez].
    repeat split; try lia. intros _. apply binary_round_aux_signed.
Qed.

Lemma SFmul_signed_pos sg x m e :
  SFsigned sg x -> SFsigned sg (SFmul prec emax x (S754_finite false m e)).
Proof.
  destruct x as [s|s| |s mx ex]; cbn [SFmul SFsigned]; auto.
  - intros ->. now rewrite xorb_false_r.
  - intros ->. rewrite xorb_false_r. apply binary_round_aux_signed.
Qed.

Lemma SFdiv_signed_pos sg x m e :
  SFsigned sg x -> SFsigned sg (SFdiv prec emax x (S754_finite false m e)).
Proof.
  destruct x as [s|s| |s mx ex]; cbn [SFdiv SFsigned]; auto.
  - intros ->. now rewrite xorb_false_r.
  - intros ->. rewrite xorb_false_r.
    destruct (SFdiv_core_binary prec emax (Zpos mx) ex (Zpos m) e) as [[mz ez] lz].
    apply binary_round_aux_signed.
Qed.

Lemma SFmul_zero_pos x m e :
  SFzero x -> SFzero (SFmul prec emax x (S754_finite false m e)).
Proof. destruct x; cbn; tauto. Qed.

Lemma SFdiv_zero_pos x m e :
  SFzero x -> SFzero (SFdiv prec emax x (S754_finite false m e)).
Proof. destruct x; cbn; tauto. Qed.

(** For valid numbers the sign classes are the two half-lines. *)
Lemma SFsigned_ord x :
  valid_binary x = true -> is_nanSF x = false ->
  (SFsigned true x <-> SFord x <= 0) /\ (SFsigned false x <-> 0 <= SFord x).
Proof.
  pose proof ord_inf_pos as H0.
  intros Hv Nx.
  destruct x as [s|s| |s m e]; try discriminate Nx; cbn [SFsigned SFord].
  - split; split; intros; (lia || exact I).
  - destruct s; cbn [cond_Zopp]; split; split; intros; try lia; try reflexivity;
      discriminate.
  - cbn [valid_binary] in Hv. apply mag_bounds in Hv. fold (mag m e).
    destruct s; cbn [cond_Zopp]; split; split; intros; try lia; try reflexivity;
      discriminate.
Qed.

(** Subtraction of finite numbers: the exact difference of the aligned
    mantissas, then one rounding. *)
Lemma SFsub_finite sx mx ex sy my ey :
  bounded prec emax mx ex = true -> bounded prec emax my ey = true ->
  exists M,
    SFsub prec emax (S754_finite sx mx ex) (S754_finite sy my ey)
    = binary_normalize prec emax M (Z.min ex ey) false
    /\ M * 2 ^ (Z.min ex ey + 1074)
       = SFord (S754_finite sx mx ex) - SFord (S754_finite sy my ey).
Proof.
  intros Hx Hy.
  pose proof (bounded_inv _ _ Hx) as (Hex & _).
  pose proof (bounded_inv _ _ Hy) as (Hey & _).
  cbn [SFsub SFord]. set (ez := Z.min ex ey).
  destruct (shl_align_spec mx ex ez) as (_ & Hmx & _); [unfold ez; lia|].
  destruct (shl_align_spec my ey ez) as (_ & Hmy & _); [unfold ez; lia|].
  eexists. split; [reflexivity|].
  assert (Hx2 : Zpos (fst (shl_align mx ex ez)) * 2 ^ (ez + 1074) = Zpos mx * 2 ^ (ex + 1074)).
  { rewrite Hmx, <- Z.mul_assoc, <- Z.pow_add_r by (unfold ez; lia).
    do 2 f_equal. lia. }
  assert (Hy2 : Zpos (fst (shl_align my ey ez)) * 2 ^ (ez + 1074) = Zpos my * 2 ^ (ey + 1074)).
  { rewrite Hmy, <- Z.mul_assoc, <- Z.pow_add_r by (unfold ez; lia).
    do 2 f_equal. lia. }
  rewrite Z.mul_sub_distr_r.
  destruct sx, sy; cbn [cond_Zopp]; lia.
Qed.

Lemma SFsub_signed x y :
  valid_binary x = true -> valid_binary y = true ->
  is_nanSF x = false -> is_nanSF y = false ->
  (SFord x <= SFord y -> SFsigned true (SFsub prec emax x y))
  /\ (SFord y <= SFord x -> SFsigned false (SFsub prec emax x y))
  /\ (SFord x = SFord y -> 0 < SFord y < ord_inf -> SFzero (SFsub prec emax x y)).
Proof.
  pose proof ord_inf_pos as H0.
  intros Hx Hy Nx Ny.
  destruct x as [sx|sx| |sx mx ex]; try discriminate Nx;
  destruct y as [sy|sy| |sy my ey]; try discriminate Ny;
  cbn [valid_binary] in *;
  try (pose proof (mag_bounds _ _ Hx) as Bx);
  try (pose proof (mag_bounds _ _ Hy) as By).
  1-8: cbn [SFsub SFord SFsigned SFzero]; try fold (mag mx ex); try fold (mag my ey);
       sign_cases;
       repeat split; intros; try lia; try reflexivity; try exact I.
  destruct (SFsub_finite sx mx ex sy my ey Hx Hy) as (M & -> & HM).
  assert (Hp : 0 < 2 ^ (Z.min ex ey + 1074)).
  { apply bounded_inv in Hx, Hy. apply Z.pow_pos_nonneg; lia. }
  destruct (binary_normalize_signed M (Z.min ex ey)) as (Hz & Hpos & Hneg).
  repeat split.
  - intros Hle. apply Hneg. nia.
  - intros Hle. apply Hpos. nia.
  - intros Heq _. rewrite Hz; [exact I|]. nia.
Qed.

Lemma SFmul_comm x y : SFmul prec emax x y = SFmul prec emax y x.
Proof.
  destruct x as [sx|sx| |sx mx ex], y as [sy|sy| |sy my ey]; cbn [SFmul];
    try rewrite (xorb_comm sx sy); try reflexivity.
  now rewrite Pos.mul_comm, Z.add_comm.
Qed.

Lemma mul_comm x y : (x * y = y * x)%float.
Proof. apply Prim2SF_inj. rewrite !mul_spec. apply SFmul_comm. Qed.

(** *** The sign classes on primitive numbers *)

Lemma signed_nan sg x : is_nan x = true -> signed sg x.
Proof.
  rewrite is_nan_spec. unfold signed.
  destruct (Prim2SF x); try discriminate. intros _. exact I.
Qed.

Lemma signed_ord x :
  is_nan x = false ->
  (signed true x <-> ord x <= 0) /\ (signed false x <-> 0 <= ord x).
Proof.
  rewrite is_nan_spec. intros Nx.
  apply SFsigned_ord; [apply Prim2SF_valid | assumption].
Qed.

Lemma mul_signed_pos sg x c :
  pos_finite c -> signed sg x -> signed sg (x * c)%float.
Proof.
  intros (m & e & Hc). unfold signed. rewrite mul_spec, Hc.
  apply SFmul_signed_pos.
Qed.

Lemma div_signed_pos sg x c :
  pos_finite c -> signed sg x -> signed sg (x / c)%float.
Proof.
  intros (m & e & Hc). unfold signed. rewrite div_spec, Hc.
  apply SFdiv_signed_pos.
Qed.

Lemma mul_zero_pos x c : pos_finite c -> is_zeroP x -> is_zeroP (x * c)%float.
Proof.
  intros (m & e & Hc). unfold is_zeroP. rewrite mul_spec, Hc.
  apply SFmul_zero_pos.
Qed.

Lemma div_zero_pos x c : pos_finite c -> is_zeroP x -> is_zeroP (x / c)%float.
Proof.
  intros (m & e & Hc). unfold is_zeroP. rewrite div_spec, Hc.
  apply SFdiv_zero_pos.
Qed.

Lemma Math_round_signed sg x : signed sg x -> signed sg (Math_round x).
Proof.
  intros Hs. destruct (is_nan x) eqn:Nx.
  - now rewrite Math_round_nan.
  - destruct (Math_round_ord x Nx) as [Nr Hr].
    destruct (signed_ord x Nx) as [Hneg Hpos].
    destruct (signed_ord _ Nr) as [Hneg' Hpos'].
    destruct (round_ord_sign (ord x)) as [Rneg Rpos].
    destruct sg.
    + apply Hneg'. rewrite Hr. apply Rneg. now apply Hneg.
    + apply Hpos'. rewrite Hr. apply Rpos. now apply Hpos.
Qed.

Lemma Math_round_zero x : is_zeroP x -> is_zeroP (Math_round x).
Proof.
  unfold is_zeroP, Math_round.
  destruct (Prim2SF x) eqn:E; try contradiction. now rewrite E.
Qed.

Lemma pos_finite_ord c : pos_finite c -> is_nan c = false /\ 0 < ord c < ord_inf.
Proof.
  intros (m & e & Hc). rewrite is_nan_spec. unfold ord.
  pose proof (Prim2SF_valid c) as Hv. rewrite Hc in *.
  split; [reflexivity|]. cbn [SFord cond_Zopp]. now apply mag_bounds.
Qed.

(** The sign of a difference is the order of its operands (a NaN
    operand gives NaN, which is in both classes). *)
Lemma sub_signed x y :
  is_nan y = false ->
  ((y <? x)%float = false -> signed true (x - y)%float)
  /\ ((x <? y)%float = false -> signed false (x - y)%float).
Proof.
  intros Ny. destruct (is_nan x) eqn:Nx.
  - assert (N : is_nan (x - y)%float = true).
    { rewrite is_nan_spec, sub_spec. rewrite is_nan_spec in Nx.
      destruct (Prim2SF x); try discriminate Nx. reflexivity. }
    split; intros _; now apply signed_nan.
  - rewrite (ltb_ord y x), (ltb_ord x y) by assumption.
    pose proof Nx as Nx'. pose proof Ny as Ny'. rewrite is_nan_spec in Nx', Ny'.
    destruct (SFsub_signed (Prim2SF x) (Prim2SF y)
                (Prim2SF_valid x) (Prim2SF_valid y) Nx' Ny') as (Hle & Hge & _).
    unfold signed. rewrite sub_spec. fold (ord x) (ord y) in *.
    split; intros H; [apply Hle | apply Hge]; apply Z.ltb_ge in H; exact H.
Qed.

Lemma sub_zero x y :
  pos_finite y -> (x =? y)%float = true -> is_zeroP (x - y)%float.
Proof.
  intros Hy Heq. destruct (pos_finite_ord y Hy) as [Ny Hoy].
  destruct (is_nan x) eqn:Nx; [rewrite eqb_nan in Heq by auto; discriminate|].
  rewrite eqb_ord in Heq by assumption. apply Z.eqb_eq in Heq.
  pose proof Nx as Nx'. pose proof Ny as Ny'. rewrite is_nan_spec in Nx', Ny'.
  destruct (SFsub_signed (Prim2SF x) (Prim2SF y)
              (Prim2SF_valid x) (Prim2SF_valid y) Nx' Ny') as (_ & _ & Hz).
  unfold is_zeroP. rewrite sub_spec. apply Hz; assumption.
Qed.

Lemma signed_not_gt x : signed true x -> (0 <? x)%float = false.
Proof.
  intros Hs. destruct (is_nan x) eqn:Nx; [apply ltb_nan; auto|].
  rewrite ltb_ord by (assumption || reflexivity).
  apply Z.ltb_ge. change (ord 0%float) with 0. now apply signed_ord.
Qed.

Lemma signed_not_lt x : signed false x -> (x <? 0)%float = false.
Proof.
  intros Hs. destruct (is_nan x) eqn:Nx; [apply ltb_nan; auto|].
  rewrite ltb_ord by (assumption || reflexivity).
  apply Z.ltb_ge. change (ord 0%float) with 0. now apply signed_ord.
Qed.

Lemma is_zeroP_eqb x : is_zeroP x -> (x =? 0)%float = true.
Proof.
  unfold is_zeroP. rewrite eqb_spec.
  destruct (Prim2SF x); try contradiction. reflexivity.
Qed.


(** *** Where NaN cannot appear *)

Lemma shr_1_nonneg mrs : 0 <= shr_m mrs -> 0 <= shr_m (shr_1 mrs).
Proof.
  destruct mrs as [m r t]. cbn [shr_m shr_1].
  destruct m as [|[p|p|]|[p|p|]]; cbn [shr_m]; lia.
Qed.

Lemma iter_shr_1_nonneg p : forall mrs,
  0 <= shr_m mrs -> 0 <= shr_m (iter_pos shr_1 p mrs).
Proof.
  induction p as [p IH|p IH|]; intros mrs H; cbn [iter_pos].
  - apply IH, IH, shr_1_nonneg, H.
  - apply IH, IH, H.
  - apply shr_1_nonneg, H.
Qed.

Lemma shr_fexp_nonneg m e l :
  0 <= m -> 0 <= shr_m (fst (shr_fexp prec emax m e l)).
Proof.
  intros Hm. unfold shr_fexp, shr.
  assert (H0 : 0 <= shr_m (shr_record_of_loc m l))
    by (destruct l as [|[| |]]; exact Hm).
  destruct (fexp prec emax (Zdigits2 m + e) - e); cbn [fst]; try exact H0.
  now apply iter_shr_1_nonneg.
Qed.

Lemma binary_round_aux_not_nan s m e l :
  0 <= m -> is_nanSF (binary_round_aux prec emax s m e l) = false.
Proof.
  intros Hm. unfold binary_round_aux.
  pose proof (shr_fexp_nonneg m e l Hm) as H1.
  destruct (shr_fexp prec emax m e l) as [mrs' e']. cbn [fst] in H1.
  assert (H2 : 0 <= round_nearest_even (shr_m mrs') (loc_of_shr_record mrs')).
  { unfold round_nearest_even.
    destruct (loc_of_shr_record mrs') as [|[| |]]; try lia.
    destruct (Z.even (shr_m mrs')); lia. }
  pose proof (shr_fexp_nonneg _ e' loc_Exact H2) as H3.
  destruct (shr_fexp prec emax _ e' loc_Exact) as [mrs'' e'']. cbn [fst] in H3.
  destruct (shr_m mrs''); [reflexivity| |lia].
  destruct (Z.leb e'' _); reflexivity.
Qed.

Lemma binary_normalize_not_nan M e :
  is_nanSF (binary_normalize prec emax M e false) = false.
Proof.
  destruct M as [|p|p]; cbn [binary_normalize]; [reflexivity| |];
    unfold binary_round; destruct (shl_align p e _) as [mz ez];
    apply binary_round_aux_not_nan; lia.
Qed.

Lemma pos_finite_finite c : pos_finite c -> finite c.
Proof. intros (m & e & H). now exists false, m, e. Qed.

Lemma mul_finite_not_nan x c :
  finite c -> is_nan x = false -> is_nan (x * c)%float = false.
Proof.
  intros (s & m & e & Hc). rewrite !is_nan_spec, mul_spec, Hc.
  destruct (Prim2SF x) as [sx|sx| |sx mx ex]; try discriminate; intros _;
    cbn [SFmul is_nanSF]; try reflexivity.
  apply binary_round_aux_not_nan. lia.
Qed.

Lemma add_finite_not_nan c x :
  finite c -> is_nan x = false -> is_nan (c + x)%float = false.
Proof.
  intros (s & m & e & Hc). rewrite !is_nan_spec, add_spec, Hc.
  destruct (Prim2SF x) as [sx|sx| |sx mx ex]; try discriminate; intros _;
    cbn [SFadd is_nanSF]; try reflexivity.
  apply binary_normalize_not_nan.
Qed.

End FloatFacts.

Import FloatFacts.

(** ** The analytics *)

Section AnalyticsProofs.

#[local] Open Scope float_scope.

Lemma lastn_skipn {A} (n : nat) (l : list A) :
  lastn n l = skipn (List.length l - n) l.
Proof. unfold lastn. now rewrite firstn_rev, rev_involutive. Qed.

Lemma slice_last {A} (period : Z) (data : list A) :
  (1 <= period <= Array_length data)%Z ->
  slice (- period) data = lastn (Z.to_nat period) data
  /\ Array_length (lastn (Z.to_nat period) data) = period.
Proof.
  unfold slice, Array_length. intros H.
  destruct (Z.ltb_spec (- period) 0); [|lia].
  rewrite lastn_skipn. split.
  - f_equal. lia.
  - rewrite length_skipn. lia.
Qed.

(** C6.  For a period of at least 1, the moving average of a
    series shorter than the period is the arithmetic mean of the whole
    series, and otherwise it is the arithmetic mean of the last [period]
    elements; the moving average of 10, 20, 30 over 7 is 20 and that of
    1..10 over 3 is 9.  (An empty series gives 0/0 on both sides, so the
    series need not be assumed non-empty.) *)
Theorem calculateMovingAverage_spec :
  (forall (data : list number) (period : Z),
      (1 <= period)%Z ->
      ((Array_length data < period)%Z ->
         calculateMovingAverage data period = mean data)
      /\ ((period <= Array_length data)%Z ->
         calculateMovingAverage data period
         = mean (lastn (Z.to_nat period) data)))
  /\ calculateMovingAverage [10; 20; 30] 7 = 20
  /\ calculateMovingAverage [1; 2; 3; 4; 5; 6; 7; 8; 9; 10] 3 = 9.
Proof.
  split; [|split; vm_compute; reflexivity].
  intros data period Hp. unfold calculateMovingAverage. split; intros H.
  - destruct (Z.ltb_spec (Array_length data) period); [reflexivity|lia].
  - destruct (Z.ltb_spec (Array_length data) period); [lia|].
    destruct (slice_last period data) as [Hs Hl]; [lia|].
    unfold mean. now rewrite Hs, Hl.
Qed.

(** C6 at the series 1..10 and the period 3. *)
Lemma calculateMovingAverage_witness :
  (1 <= 3)%Z /\ (3 <= Array_length [1; 2; 3; 4; 5; 6; 7; 8; 9; 10]%float)%Z
  /\ calculateMovingAverage [1; 2; 3; 4; 5; 6; 7; 8; 9; 10] 3
     = mean (lastn 3 [1; 2; 3; 4; 5; 6; 7; 8; 9; 10]).
Proof.
  assert (H1 : (1 <= 3)%Z) by lia.
  assert (H2 : (3 <= Array_length [1; 2; 3; 4; 5; 6; 7; 8; 9; 10]%float)%Z)
    by (vm_compute; discriminate).
  split; [exact H1|]. split; [exact H2|].
  exact (proj2 (proj1 calculateMovingAverage_spec _ 3%Z H1) H2).
Defined.

(** C7.  On a series of at least two elements the volatility
    is the population standard deviation (the mean, the mean of the
    squared deviations from it, the square root); on a shorter series it
    is 0; it is 0 on 100, 100, 100 and on the empty series, and 5 on
    10, 20. *)
Theorem calculateVolatility_spec :
  (forall prices : list number,
      (2 <= Array_length prices)%Z ->
      calculateVolatility prices = population_stdev prices)
  /\ (forall prices : list number,
      (Array_length prices < 2)%Z -> calculateVolatility prices = 0)
  /\ calculateVolatility [100; 100; 100] = 0
  /\ calculateVolatility [] = 0
  /\ calculateVolatility [10; 20] = 5.
Proof.
  split; [|split; [|repeat split; vm_compute; reflexivity]].
  - intros prices H. unfold calculateVolatility, population_stdev, mean.
    destruct (Z.ltb_spec (Array_length prices) 2); [lia|].
    unfold Array_length. now rewrite length_map.
  - intros prices H. unfold calculateVolatility.
    destruct (Z.ltb_spec (Array_length prices) 2); [reflexivity|lia].
Qed.

(** C7 at the series 10, 20. *)
Lemma calculateVolatility_witness :
  (2 <= Array_length [10; 20]%float)%Z
  /\ calculateVolatility [10; 20] = population_stdev [10; 20].
Proof.
  assert (H : (2 <= Array_length [10; 20]%float)%Z) by (vm_compute; discriminate).
  split; [exact H|].
  exact (proj1 calculateVolatility_spec _ H).
Defined.

(** *** The correlation loop *)







Lemma efficiency_guard (a b : list number) :
  negb (Array_length a =? Array_length b)%Z || (Array_length a <? 2)%Z = false
  <-> List.length a = List.length b /\ 2 <= List.length a.
Proof.
  unfold Array_length. rewrite orb_false_iff, negb_false_iff, Z.eqb_eq, Z.ltb_ge.
  lia.
Qed.

Lemma efficiency_loop_swap a b mean1 mean2 : forall idx acc,
  fold_left (efficiency_step b a mean2 mean1) idx (swap_sums acc)
  = swap_sums (fold_left (efficiency_step a b mean1 mean2) idx acc).
Proof.
  induction idx as [|i idx IH]; intros acc; cbn [fold_left]; [reflexivity|].
  rewrite <- IH. f_equal.
  unfold efficiency_step, swap_sums. cbn [numerator denominator1 denominator2].
  f_equal. f_equal. apply mul_comm.
Qed.

Lemma calculateMarketEfficiency_swap (a b : list number) :
  calculateMarketEfficiency a b = calculateMarketEfficiency b a.
Proof.
  unfold calculateMarketEfficiency.
  destruct (negb (Array_length a =? Array_length b)%Z || (Array_length a <? 2)%Z)
    eqn:G.
  - replace (negb (Array_length b =? Array_length a)%Z || (Array_length b <? 2)%Z)
      with true; [reflexivity|].
    symmetry. apply not_false_is_true. intros G'.
    apply efficiency_guard in G'. destruct G' as [Hl Hn].
    assert (G2 : negb (Array_length a =? Array_length b)%Z
                 || (Array_length a <? 2)%Z = false)
      by (apply efficiency_guard; lia).
    congruence.
  - pose proof G as G'. apply efficiency_guard in G'. destruct G' as [Hl Hn].
    replace (negb (Array_length b =? Array_length a)%Z || (Array_length b <? 2)%Z)
      with false by (symmetry; apply efficiency_guard; lia).
    cbv zeta. rewrite <- Hl.
    set (mean1 := reduce_sum a / num_of_Z (Z.of_nat (List.length a))).
    set (mean2 := reduce_sum b / num_of_Z (Z.of_nat (List.length a))).
    unfold efficiency_loop.
    set (idx := seq 0 (List.length a)).
    set (start := {| numerator := 0; denominator1 := 0; denominator2 := 0 |}).
    pose proof (efficiency_loop_swap a b mean1 mean2 idx start) as Hswap.
    change (swap_sums start) with start in Hswap. rewrite Hswap.
    cbn [swap_sums numerator denominator1 denominator2].
    now rewrite (mul_comm (denominator1 _)).
Qed.

(** C10.  The efficiency of two series does not depend on their order:
    both calls return the same number, and they compare equal under [==]
    unless that number is NaN (which both calls then return). *)
Theorem calculateMarketEfficiency_symmetric (a b : list number) :
  calculateMarketEfficiency a b = calculateMarketEfficiency b a
  /\ ((calculateMarketEfficiency a b =? calculateMarketEfficiency b a) = true
      \/ (is_nan (calculateMarketEfficiency a b) = true
          /\ is_nan (calculateMarketEfficiency b a) = true)).
Proof.
  pose proof (calculateMarketEfficiency_swap a b) as Hswap.
  split; [exact Hswap|]. rewrite <- Hswap.
  unfold is_nan.
  destruct (calculateMarketEfficiency a b =? calculateMarketEfficiency a b);
    [left|right]; split; reflexivity.
Qed.

(** C1, at the input where the code departs from it.  On the constant series
    5, 5, 5 against 1, 2, 3 both the co-deviation sum and the first
    squared-deviation sum are 0, the division is 0/0 and the efficiency
    is NaN, which is not 0. *)
Theorem calculateMarketEfficiency_constant_series_nan :
  calculateMarketEfficiency [5; 5; 5] [1; 2; 3] = nan
  /\ (calculateMarketEfficiency [5; 5; 5] [1; 2; 3] =? 0) = false.
Proof. split; vm_compute; reflexivity. Qed.




End AnalyticsProofs.

(** ** The synthesizer *)

Section SynthProofs.

#[local] Open Scope float_scope.

(** *** The floor of a fluctuated price *)

Lemma generatePriceFluctuation_eq h basePrice volatility k :
  generatePriceFluctuation h basePrice volatility k
  = (Math_max (basePrice + sample h k * volatility * basePrice) (basePrice * 0.5),
     S (S k)).
Proof. reflexivity. Qed.

(** Rounding the larger of [x] and [c] never falls below rounding [c]. *)
Lemma round_max_floor x c :
  (Math_round (Math_max x c) <? Math_round c) = false
  /\ (is_nan x = false -> is_nan c = false ->
      (Math_round c <=? Math_round (Math_max x c)) = true).
Proof.
  destruct (is_nan x) eqn:Nx; [|destruct (is_nan c) eqn:Nc].
  - split; [|discriminate]. apply ltb_nan. left.
    rewrite Math_max_nan by auto. reflexivity.
  - split; [|discriminate]. apply ltb_nan. left.
    rewrite Math_max_nan by auto. reflexivity.
  - destruct (Math_max_ord x c Nx Nc) as [Nm Hm].
    destruct (Math_round_ord _ Nm) as [Nrm Hrm].
    destruct (Math_round_ord _ Nc) as [Nrc Hrc].
    assert (Hle : (ord (Math_round c) <= ord (Math_round (Math_max x c)))%Z).
    { rewrite Hrm, Hrc, Hm. apply round_ord_mono. lia. }
    split; [|intros _ _]; [rewrite ltb_ord | rewrite leb_ord]; try assumption.
    + now apply Z.ltb_ge.
    + now apply Z.leb_le.
Qed.

Lemma fluctuation_not_nan b v z :
  finite b -> finite v -> is_nan z = false ->
  is_nan (b + z * v * b) = false /\ is_nan (b * 0.5) = false.
Proof.
  intros Hb Hv Nz. split.
  - apply add_finite_not_nan; [assumption|].
    apply mul_finite_not_nan; [assumption|].
    apply mul_finite_not_nan; assumption.
  - apply mul_finite_not_nan.
    + exists false. vm_compute. eauto.
    + destruct Hb as (s & m & e & Hb). rewrite is_nan_spec, Hb. reflexivity.
Qed.

Lemma BASE_PRICES_pos_finite c w : pos_finite (BASE_PRICES c w).
Proof. destruct c, w; vm_compute; eauto. Qed.

Lemma VOLATILITY_finite c : finite (VOLATILITY c) /\ finite (VOLATILITY c * 0.5).
Proof. destruct c; split; exists false; vm_compute; eauto. Qed.

(** Half a base price of the table is an integer already. *)
Lemma half_base_round c w :
  Math_round (BASE_PRICES c w * 0.5) = 0.5 * BASE_PRICES c w.
Proof. destruct c, w; vm_compute; reflexivity. Qed.

(** *** The records of a snapshot *)

Lemma generateMarketData_records h k r :
  In r (fst (generateMarketData h k)) ->
  forall c,
    priceOf c r = snapshotPrice h k c (city r)
    /\ changeOf c r = calculatePriceChange (priceOf c r) (BASE_PRICES c (city r)).
Proof.
  intros [<-|[<-|[]]] []; split; reflexivity.
Qed.

Lemma snapshotPrice_floor h k c w :
  (snapshotPrice h k c w <? 0.5 * BASE_PRICES c w) = false
  /\ (is_nan (sample h (drawsBefore c w + k)) = false ->
      (0.5 * BASE_PRICES c w <=? snapshotPrice h k c w) = true).
Proof.
  unfold snapshotPrice. rewrite <- half_base_round.
  set (b := BASE_PRICES c w). set (z := sample h _).
  destruct (round_max_floor (b + z * VOLATILITY c * b) (b * 0.5)) as [Hlt Hle].
  split; [exact Hlt|]. intros Nz.
  destruct (fluctuation_not_nan b (VOLATILITY c) z) as [N1 N2];
    [apply pos_finite_finite, BASE_PRICES_pos_finite
    |apply VOLATILITY_finite|exact Nz|].
  now apply Hle.
Qed.

(** *** The points of a history *)

Lemma historyLoop_points h today : forall counters acc k,
  fst (historyLoop h today counters acc k)
  = acc ++ historyPoints h today counters k.
Proof.
  induction counters as [|i rest IH]; intros acc k.
  - cbn. now rewrite app_nil_r.
  - cbn [historyPoints].
    change (historyLoop h today (i :: rest) acc k)
      with (historyLoop h today rest (acc ++ [fst (historyPoint h today i k)]) (8 + k)%nat).
    rewrite IH, <- app_assoc. reflexivity.
Qed.

Lemma generateHistoricalData_points h k :
  fst (generateHistoricalData h k)
  = historyPoints h (Date_now h) historyIndices k.
Proof. unfold generateHistoricalData. now rewrite historyLoop_points. Qed.

Lemma historyPoints_nth h today : forall counters k j p,
  nth_error (historyPoints h today counters k) j = Some p ->
  exists i, nth_error counters j = Some i
            /\ p = fst (historyPoint h today i (8 * j + k)%nat).
Proof.
  induction counters as [|i rest IH]; intros k j p H.
  - destruct j; discriminate H.
  - destruct j as [|j]; cbn [historyPoints nth_error] in H |- *.
    + injection H as <-. exists i. split; reflexivity.
    + destruct (IH _ _ _ H) as (i' & Hi & Hp). exists i'. split; [exact Hi|].
      rewrite Hp. do 2 f_equal. lia.
Qed.

Lemma historyPoints_length h today : forall counters k,
  List.length (historyPoints h today counters k) = List.length counters.
Proof.
  induction counters as [|i rest IH]; intros k; cbn; [reflexivity|].
  now rewrite IH.
Qed.

Lemma historyIndices_nth j i :
  nth_error historyIndices j = Some i -> i = (29 - Z.of_nat j)%Z /\ (j < 30)%nat.
Proof.
  do 30 (destruct j as [|j]; [intros H; injection H as <-; split; [reflexivity|lia]|]).
  destruct j; discriminate.
Qed.

(** The point at position [j] of a history (oldest first) is the one the
    loop makes for the counter [29 - j], after [8 j] draws. *)
Lemma generateHistoricalData_nth h k j p :
  nth_error (fst (generateHistoricalData h k)) j = Some p ->
  p = fst (historyPoint h (Date_now h) (29 - Z.of_nat j) (8 * j + k)%nat)
  /\ (j < 30)%nat.
Proof.
  intros Hp. rewrite generateHistoricalData_points in Hp.
  apply historyPoints_nth in Hp. destruct Hp as (i & Hi & ->).
  apply historyIndices_nth in Hi. destruct Hi as [-> Hj]. now split.
Qed.

Lemma historyPoint_price h today i k c w :
  historyPrice c w (fst (historyPoint h today i k))
  = Math_round
      (Math_max
         (historyBase h c w i
          + sample h (historyDraws c w + k) * (VOLATILITY c * 0.5) * historyBase h c w i)
         (historyBase h c w i * 0.5)).
Proof. destruct c, w; reflexivity. Qed.

(** C3, amended.  A snapshot price is never below half its base price,
    and is at least that when its Box-Muller sample is a number.  A
    history price is floored relative to the base of its day: the price
    of the point at position [j] (counter [29 - j]) is never below the
    rounding of half of [historyBase], the table price times the trend
    and seasonal factors of that day, and is at least that when the
    sample is a number and [historyBase] is finite. *)
Theorem price_floor :
  (forall h k r c,
      In r (fst (generateMarketData h k)) ->
      (priceOf c r <? 0.5 * BASE_PRICES c (city r)) = false
      /\ (is_nan (sample h (drawsBefore c (city r) + k)) = false ->
          (0.5 * BASE_PRICES c (city r) <=? priceOf c r) = true))
  /\ (forall h k j p c w,
      nth_error (fst (generateHistoricalData h k)) j = Some p ->
      let base := historyBase h c w (29 - Z.of_nat j) in
      (historyPrice c w p <? Math_round (base * 0.5)) = false
      /\ (is_nan (sample h (historyDraws c w + (8 * j + k))) = false ->
          finite base ->
          (Math_round (base * 0.5) <=? historyPrice c w p) = true)).
Proof.
  split.
  - intros h k r c Hr.
    destruct (generateMarketData_records h k r Hr c) as [-> _].
    apply snapshotPrice_floor.
  - intros h k j p c w Hp base.
    apply generateHistoricalData_nth in Hp. destruct Hp as [-> _].
    rewrite historyPoint_price. fold base.
    set (z := sample h _).
    destruct (round_max_floor (base + z * (VOLATILITY c * 0.5) * base) (base * 0.5))
      as [Hlt Hle].
    split; [exact Hlt|]. intros Nz Hb.
    destruct (fluctuation_not_nan base (VOLATILITY c * 0.5) z) as [N1 N2];
      [exact Hb|apply VOLATILITY_finite|exact Nz|].
    now apply Hle.
Qed.

(** C3, amended, at the eighth point of a history. *)
Lemma price_floor_witness :
  let history := fst (generateHistoricalData RefHost.low_host 0%nat) in
  let p := nth 7 history (mkPriceData "" nan nan nan nan) in
  nth_error history 7 = Some p
  /\ (historyPrice MAIZE NAIROBI p
      <? Math_round (historyBase RefHost.low_host MAIZE NAIROBI (29 - Z.of_nat 7) * 0.5))
     = false.
Proof.
  intros history p.
  assert (H : nth_error history 7 = Some p) by (vm_compute; reflexivity).
  split; [exact H|].
  exact (proj1 (proj2 price_floor RefHost.low_host 0%nat 7%nat p MAIZE NAIROBI H)).
Defined.

(** C3 as the claim has it fails in the history: with draws that push
    the prices to their floor, the Nairobi maize price of the eighth
    point (22 days back) is 2185, below half the base price 4500. *)
Lemma history_price_below_half_base :
  let history := fst (generateHistoricalData RefHost.low_host 0%nat) in
  let p := nth 7 history (mkPriceData "" nan nan nan nan) in
  In p history
  /\ historyPrice MAIZE NAIROBI p = 2185
  /\ (0.5 * BASE_PRICES MAIZE NAIROBI <=? historyPrice MAIZE NAIROBI p) = false.
Proof.
  intros history p. split; [|split; vm_compute; reflexivity].
  apply nth_In. vm_compute. lia.
Qed.

(** *** The percent change *)

Lemma hundred_pos_finite : pos_finite 100.
Proof. vm_compute; eauto. Qed.

Lemma ten_pos_finite : pos_finite 10.
Proof. vm_compute; eauto. Qed.

(** The rounded change never has the sign opposite to the price
    difference, and vanishes with it. *)
Lemma calculatePriceChange_sign price base :
  pos_finite base ->
  let change := calculatePriceChange price base in
  ((base <? price) = false -> (0 <? change) = false)
  /\ ((price <? base) = false -> (change <? 0) = false)
  /\ ((price =? base) = true -> (change =? 0) = true).
Proof.
  intros Hb change. destruct (pos_finite_ord base Hb) as [Nb _].
  destruct (sub_signed price base Nb) as [Hneg Hpos].
  assert (chain : forall sg, signed sg (price - base) -> signed sg change).
  { intros sg H. unfold change, calculatePriceChange.
    apply div_signed_pos; [exact ten_pos_finite|].
    apply Math_round_signed.
    apply mul_signed_pos; [exact ten_pos_finite|].
    apply mul_signed_pos; [exact hundred_pos_finite|].
    apply div_signed_pos; [exact Hb|exact H]. }
  repeat split.
  - intros H. apply signed_not_gt, chain, Hneg, H.
  - intros H. apply signed_not_lt, chain, Hpos, H.
  - intros H. apply is_zeroP_eqb. unfold change, calculatePriceChange.
    apply div_zero_pos; [exact ten_pos_finite|].
    apply Math_round_zero.
    apply mul_zero_pos; [exact ten_pos_finite|].
    apply mul_zero_pos; [exact hundred_pos_finite|].
    apply div_zero_pos; [exact Hb|].
    now apply sub_zero.
Qed.

(** C4, amended.  In every snapshot record a positive change comes with
    a price above the base, a negative change with a price below it, and
    a price equal to the base with a change equal to 0. *)
Theorem change_sign_consistency h k r c :
  In r (fst (generateMarketData h k)) ->
  let price := priceOf c r in
  let change := changeOf c r in
  let base := BASE_PRICES c (city r) in
  ((0 <? change) = true -> (base <? price) = true)
  /\ ((change <? 0) = true -> (price <? base) = true)
  /\ ((price =? base) = true -> (change =? 0) = true).
Proof.
  intros Hr price change base.
  destruct (generateMarketData_records h k r Hr c) as [_ Hc].
  fold price change base in Hc.
  destruct (calculatePriceChange_sign price base (BASE_PRICES_pos_finite _ _))
    as (H1 & H2 & H3).
  rewrite <- Hc in H1, H2, H3.
  repeat split.
  - intros H. destruct (base <? price); [reflexivity|].
    rewrite H1 in H by reflexivity. discriminate H.
  - intros H. destruct (price <? base); [reflexivity|].
    rewrite H2 in H by reflexivity. discriminate H.
  - exact H3.
Qed.

(** C4, amended, at the first record of a snapshot whose prices sit on
    their floor. *)
Lemma change_sign_consistency_witness :
  let r := hd (mkMarketData NAIROBI MAIZE nan nan nan nan 0%Z)
             (fst (generateMarketData RefHost.low_host 0%nat)) in
  In r (fst (generateMarketData RefHost.low_host 0%nat))
  /\ (changeOf MAIZE r <? 0) = true
  /\ (priceOf MAIZE r <? BASE_PRICES MAIZE (city r)) = true.
Proof.
  intros r.
  assert (Hr : In r (fst (generateMarketData RefHost.low_host 0%nat)))
    by (left; reflexivity).
  assert (Hc : (changeOf MAIZE r <? 0) = true) by (vm_compute; reflexivity).
  split; [exact Hr|]. split; [exact Hc|].
  exact (proj1 (proj2 (change_sign_consistency RefHost.low_host 0%nat r MAIZE Hr)) Hc).
Defined.

(** C4 as the claim has it fails: with draws that leave the Nairobi
    maize price at 4501, one above its base, the change rounds to 0. *)
Lemma change_zero_above_base :
  let r := hd (mkMarketData NAIROBI MAIZE nan nan nan nan 0%Z)
             (fst (generateMarketData RefHost.near_host 0%nat)) in
  In r (fst (generateMarketData RefHost.near_host 0%nat))
  /\ priceOf MAIZE r = 4501
  /\ changeOf MAIZE r = 0
  /\ (BASE_PRICES MAIZE (city r) <? priceOf MAIZE r) = true
  /\ (0 <? changeOf MAIZE r) = false
  /\ (changeOf MAIZE r =? 0) = true
  /\ (priceOf MAIZE r =? BASE_PRICES MAIZE (city r)) = false.
Proof.
  intros r. split; [left; reflexivity|].
  repeat split; vm_compute; reflexivity.
Qed.

(** *** A zero base price *)

Lemma Math_round_not_finite x :
  match Prim2SF x with S754_finite _ _ _ => False | _ => True end ->
  Math_round x = x.
Proof.
  unfold Math_round. destruct (Prim2SF x); try reflexivity. contradiction.
Qed.

(** C5, amended.  With a base price of 0 the percent change is computed
    without error and is +Infinity for a positive price, -Infinity for a
    negative one and NaN otherwise (the price is 0 or NaN). *)
Theorem calculatePriceChange_zero_base (p : number) :
  calculatePriceChange p 0
  = if 0 <? p then infinity else if p <? 0 then neg_infinity else nan.
Proof.
  unfold calculatePriceChange.
  set (t := (p - 0) / 0 * 100 * 10).
  assert (Ht : Prim2SF t
               = match Prim2SF p with
                 | S754_nan | S754_zero _ => S754_nan
                 | S754_infinity s | S754_finite s _ _ => S754_infinity s
                 end).
  { unfold t. rewrite !mul_spec, div_spec, sub_spec.
    destruct hundred_pos_finite as (m1 & e1 & ->).
    destruct ten_pos_finite as (m2 & e2 & ->).
    change (Prim2SF 0) with (S754_zero false).
    destruct (Prim2SF p) as [[|]|[|]| |[|] m e]; reflexivity. }
  rewrite Math_round_not_finite
    by (rewrite Ht; destruct (Prim2SF p); exact I).
  apply Prim2SF_inj. rewrite div_spec, Ht, !ltb_spec.
  destruct ten_pos_finite as (m2 & e2 & ->).
  change (Prim2SF 0) with (S754_zero false).
  destruct (Prim2SF p) as [[|]|[|]| |[|] m e]; reflexivity.
Qed.

(** C5 as the claim has it fails: at the price 4500 and the base 0 the
    change is +Infinity, not 0. *)
Lemma calculatePriceChange_zero_base_infinite :
  calculatePriceChange 4500 0 = infinity
  /\ (calculatePriceChange 4500 0 =? 0) = false.
Proof. split; vm_compute; reflexivity. Qed.

(** *** The trend factor *)

(** C2, as the code has it.  The trend factor applied to
    the base price is 1 for today (counter 0) and grows with the age of
    the day, up to 1.029 for the oldest day (counter 29): it is never
    below 1, and it decreases as the day approaches today. *)
Theorem trendFactor_grows_with_age :
  forallb (fun i => trendFactor i <? trendFactor (i + 1))
    (map Z.of_nat (seq 0 29)) = true
  /\ forallb (fun i => 1 <=? trendFactor i) (map Z.of_nat (seq 0 30)) = true
  /\ trendFactor 0 = 1
  /\ trendFactor 29 = 1.029
  /\ (forall h c w i,
        historyBase h c w i = BASE_PRICES c w * trendFactor i * seasonalFactor h i).
Proof. repeat split; vm_compute; reflexivity. Qed.

(** *** The dates of a history *)

(** [YearFromTime] is the year ECMA-262 defines: the one whose first
    instant is at or before [t] and whose successor starts after [t]. *)
Lemma YearFromTime_spec t :
  (TimeFromYear (YearFromTime t) <= t < TimeFromYear (YearFromTime t + 1))%Z.
Proof.
  unfold YearFromTime.
  set (y := (1970 + Day t * 400 / 146097)%Z).
  assert (Hy : (TimeFromYear (y - 1) <= t < TimeFromYear (y + 2))%Z).
  { unfold y, TimeFromYear, DayFromYear, Day, msPerDay.
    Z.div_mod_to_equations; lia. }
  assert (Hstep : forall z, (z - 1 + 1 = z /\ z + 1 + 1 = z + 2)%Z) by (intros; lia).
  destruct (Z.leb_spec (TimeFromYear (y + 1)) t);
    [|destruct (Z.ltb_spec t (TimeFromYear y))].
  - destruct (Hstep y) as [_ ->]. lia.
  - destruct (Hstep y) as [-> _]. lia.
  - lia.
Qed.

Lemma DayFromYear_increasing y : (DayFromYear y < DayFromYear (y + 1))%Z.
Proof. unfold DayFromYear. Z.div_mod_to_equations; lia. Qed.

Lemma MonthFromTime_range t : (0 <= MonthFromTime t <= 11)%Z.
Proof.
  unfold MonthFromTime.
  repeat match goal with |- context [if ?b then _ else _] => destruct b end; lia.
Qed.

Lemma MakeDay_of_time t dt :
  MakeDay (YearFromTime t) (MonthFromTime t) dt
  = (Day t - DateFromTime t + dt)%Z.
Proof.
  pose proof (MonthFromTime_range t) as Hm.
  unfold MakeDay. rewrite Z.div_small, Z.mod_small, Z.add_0_r by lia.
  unfold DateFromTime, DayWithinYear, InLeapYear. lia.
Qed.

(** Where the offset from UTC never changes, [setDate] with the day of
    the month less [i] goes back [i] whole days. *)
Lemma setDate_fixed_offset tz off tv i :
  (forall t b, tz t b = off) ->
  setDate tz tv (getDate tz tv - i) = (tv - i * msPerDay)%Z.
Proof.
  intros Htz. unfold setDate, getDate, LocalTime, UTC. rewrite !Htz.
  rewrite MakeDay_of_time. unfold MakeDate, Day, TimeWithinDay.
  pose proof (Z.div_mod (tv + off) msPerDay) as Hdm.
  assert (Hms : msPerDay <> 0%Z) by (unfold msPerDay; lia).
  specialize (Hdm Hms). lia.
Qed.

(** Under a fixed offset the dates of a history are the UTC dates of the
    thirty days that end with the instant of the call. *)
Lemma history_dates_fixed_offset h k off j p :
  (forall t b, LocalTZA h t b = off) ->
  nth_error (fst (generateHistoricalData h k)) j = Some p ->
  date p = toISOString_date (Date_now h - (29 - Z.of_nat j) * msPerDay).
Proof.
  intros Htz Hp.
  apply generateHistoricalData_nth in Hp. destruct Hp as [-> _].
  change (date (fst (historyPoint h (Date_now h) (29 - Z.of_nat j) (8 * j + k)%nat)))
    with (toISOString_date
            (setDate (LocalTZA h) (Date_now h)
               (getDate (LocalTZA h) (Date_now h) - (29 - Z.of_nat j)))).
  now rewrite (setDate_fixed_offset _ off).
Qed.

(** C9, as the code has it.  A history has 30 points, but
    its dates are the UTC dates of local times.  In New York, on the
    evening of 20 March 2024, the 19th and the 20th point are both dated
    2024-03-10; in Nairobi, at 01:00 on 2 June 2024, the last point is
    dated 2024-06-01. *)
Theorem history_dates :
  (forall h k, List.length (fst (generateHistoricalData h k)) = 30%nat)
  /\ (let dates := map date (fst (generateHistoricalData RefHost.new_york_host 0%nat)) in
      nth_error dates 18 = Some "2024-03-10"%string
      /\ nth_error dates 19 = Some "2024-03-10"%string)
  /\ (let dates := map date (fst (generateHistoricalData RefHost.nairobi_host 0%nat)) in
      let now := Date_now RefHost.nairobi_host in
      nth_error dates 29 = Some "2024-06-01"%string
      /\ toISOString_date (LocalTime RefHost.nairobi_tz now) = "2024-06-02"%string
      /\ getDate RefHost.nairobi_tz now = 2%Z).
Proof.
  split; [|split; repeat split; vm_compute; reflexivity].
  intros h k. rewrite generateHistoricalData_points, historyPoints_length.
  reflexivity.
Qed.

End SynthProofs.
